(** * ReaderTask: an environment-dependent asynchronous effect

    A shallow embedding of [src/ReaderTask.ts] (fp-ts).  A [ReaderTask R A]
    is a function from an environment [R] to a [Task A]; a [Task A] is a
    zero-argument operation that, once invoked, hands back an asynchronous
    result.  The module under study is a composition layer: every operation
    is written with the combinators of its collaborators [Task] ([T]),
    [Reader] ([R]) and [function].  Those collaborators are modelled first,
    from their contracts; the module itself is then transcribed definition
    by definition, and its laws are proved on the values effects resolve
    to. *)

From stdpp Require Import base list gmap strings sorting.
From Stdlib Require Import ZArith.

(* ===================================================================== *)
(** * The asynchronous result                                             *)
(* ===================================================================== *)

(** Modelled from the spec: the asynchronous result a [Task] produces when it
    is invoked (the file [Task.ts] and the runtime's promises are missing).
    The spec fixes the contract: the result "always eventually resolves to
    a value" and there is no failure channel.  A promise is therefore the
    value it resolves to, together with the instant, counted from the moment
    the task was invoked, at which it settles.  The instant is what lets two
    schedules of the same effects be told apart. *)
Record Promise (A : Type) : Type := mkPromise {
  resolved : A;
  settled : nat
}.
Arguments mkPromise {A} _ _.
Arguments resolved {A} _.
Arguments settled {A} _.

(** Modelled from the spec: [Task<A>], "a zero-argument operation that, when
    invoked, produces an asynchronous result" ([Task.ts] is missing).  A
    task of this type yields the same value after the same delay whenever
    it is invoked; tasks whose outcome depends on the instant at which they
    are started are [StartedTask]s, below. *)
Definition Task (A : Type) : Type := unit → Promise A.

(** Modelled from the spec: [Reader<R, A>], "a pure total function from
    environment to value" ([Reader.ts] is missing). *)
Definition Reader (R A : Type) : Type := R → A.

(** Modelled from the spec: [IO<A>], "a zero-argument operation producing a
    value synchronously, assumed total" ([IO.ts] is missing). *)
Definition IO (A : Type) : Type := unit → A.

(** [export interface ReaderTask<R, A> { (r: R): Task<A> }] *)
Definition ReaderTask (R A : Type) : Type := R → Task A.

(** Modelled from the spec: a [Task] that observes when it is invoked.  The
    zero-argument operation is run at some instant, and nothing in its
    contract keeps its outcome from depending on that instant (it may read
    a clock, or a state others change meanwhile).  The argument is the
    instant at which the task is started; [settled] counts from there. *)
Definition StartedTask (A : Type) : Type := nat → Promise A.

(** [export interface ReaderTask<R, A> { (r: R): Task<A> }], over tasks that
    observe when they are started. *)
Definition StartedReaderTask (R A : Type) : Type := R → StartedTask A.

(** The value a task resolves to when it is run. *)
Definition resolves {A} (t : Task A) : A := resolved (t tt).

(** The instant at which a task settles, counted from its invocation. *)
Definition settles {A} (t : Task A) : nat := settled (t tt).

(* ===================================================================== *)
(** * Capability records                                                  *)
(* ===================================================================== *)

Module Semigroup.
(** Modelled from the spec: the Semigroup capability, "a binary,
    associative combine operation over a result type" ([Semigroup.ts] is
    missing). *)
Record Semigroup (A : Type) : Type := { concat : A → A → A }.
Arguments concat {A} _ _ _.
End Semigroup.

Module Monoid.
(** Modelled from the spec: the Monoid capability, a Semigroup "optionally
    with an identity element" ([Monoid.ts] is missing). *)
Record Monoid (A : Type) : Type := { concat : A → A → A; empty : A }.
Arguments concat {A} _ _ _.
Arguments empty {A} _.

(** [Monoid<A> extends Semigroup<A>]: a monoid passed where a semigroup is
    expected is read through its [concat]. *)
Definition toSemigroup {A} (M : Monoid A) : Semigroup.Semigroup A :=
  {| Semigroup.concat := concat M |}.
End Monoid.
Coercion Monoid.toSemigroup : Monoid.Monoid >-> Semigroup.Semigroup.

Module Functor.
(** Modelled from the spec: the "bundled operation table" of a functor
    instance ([Functor.ts] is missing). *)
Record Functor2 (F : Type → Type → Type) : Type := {
  URI : string;
  map : ∀ E A B, (A → B) → F E A → F E B
}.
Arguments map {F} _ {E A B} _ _.
End Functor.

Module Applicative.
(** Modelled from the spec: the "bundled operation table" of an
    applicative instance ([Applicative.ts] is missing).  The fields have
    the types the instances of [ReaderTask.ts] give them: [ap] takes the
    effect-of-argument first and the effect-of-function second. *)
Record Applicative2 (F : Type → Type → Type) : Type := {
  URI : string;
  map : ∀ E A B, (A → B) → F E A → F E B;
  ap : ∀ E A B, F E A → F E (A → B) → F E B;
  of_ : ∀ E A, A → F E A
}.
Arguments map {F} _ {E A B} _ _.
Arguments ap {F} _ {E A B} _ _.
Arguments of_ {F} _ {E A} _.
End Applicative.

Module Monad.
(** Modelled from the spec: the "bundled operation table" of a monad
    instance ([Monad.ts] is missing). *)
Record Monad2 (F : Type → Type → Type) : Type := {
  URI : string;
  map : ∀ E A B, (A → B) → F E A → F E B;
  of_ : ∀ E A, A → F E A;
  chain : ∀ E A B, (A → F E B) → F E A → F E B
}.
Arguments map {F} _ {E A B} _ _.
Arguments of_ {F} _ {E A} _.
Arguments chain {F} _ {E A B} _ _.

(** Modelled from the spec: [chainFirst_] of [Monad.ts] (missing), the
    derivation the source describes as "using the return value of one
    computation to determine the next computation and keeping only the
    result of the first": [M.chain((a) => pipe(f(a), M.map(() => a)))]. *)
Definition chainFirst_ {F} (M : Monad2 F) {E A B} (f : A → F E B)
  : F E A → F E A :=
  chain M (λ a, map M (λ _ : B, a) (f a)).
End Monad.

Module MonadTask.
(** Modelled from the spec: the "bundled operation table" of the lifts from
    [IO] and [Task] ([MonadTask.ts] is missing). *)
Record MonadTask2 (F : Type → Type → Type) : Type := {
  URI : string;
  fromIO : ∀ E A, IO A → F E A;
  fromTask : ∀ E A, Task A → F E A
}.
End MonadTask.

(* ===================================================================== *)
(** * function.ts                                                         *)
(* ===================================================================== *)

Module function.

(** Modelled from the spec: [identity] of [function.ts] (missing). *)
Definition identity {A} (a : A) : A := a.

(** Modelled from the spec: [pipe(a, f)] of [function.ts] (missing), the
    "left-to-right value-threading" helper: [pipe(a, f) = f(a)]. *)
Definition pipe {A B} (a : A) (ab : A → B) : B := ab a.

(** Modelled from the spec: [flow(f, g)] of [function.ts] (missing),
    left-to-right composition: [flow(f, g)(a) = g(f(a))]. *)
Definition flow {A B C} (ab : A → B) (bc : B → C) : A → C := λ a, bc (ab a).

(** Modelled from the spec: [bind_(a, name, b)] of [function.ts]
    (missing), which "merges the new field into the record under [name]":
    a copy of the record [a] with the field [name] set to [b].  A record
    is a finite map from field names to values. *)
Definition bind_ {V} (a : gmap string V) (name : string) (b : V)
  : gmap string V := <[name := b]> a.

(** Modelled from the spec: [bindTo_(name)] of [function.ts] (missing),
    which "wraps a bare effect's result as a single-field record". *)
Definition bindTo_ {V} (name : string) (b : V) : gmap string V :=
  {[name := b]}.

(** Modelled from the spec: [pipe(a, f, g)] of [function.ts] (missing), the
    three-argument use of [pipe]: [pipe(a, f, g) = g(f(a))]. *)
Definition pipe3 {A B C} (a : A) (ab : A → B) (bc : B → C) : C := bc (ab a).

(** Modelled from the spec: [tuple(a)] of [function.ts] (missing), the
    one-element "fixed-length ordered sequence".  The elements of a tuple
    share one type here. *)
Definition tuple {A} (a : A) : list A := [a].

End function.

(* ===================================================================== *)
(** * Apply.ts                                                            *)
(* ===================================================================== *)

Module Apply.
Import function.

(** Modelled from the spec: [apFirst_] of [Apply.ts] (missing), the
    derivation the source describes as "Combine two effectful actions,
    keeping only the result of the first":
    [pipe(first, A.map((a) => () => a), A.ap(second))]. *)
Definition apFirst_ {F} (A : Applicative.Applicative2 F) {E X B}
    (second : F E B) : F E X → F E X :=
  λ first,
    pipe3 first
      (Applicative.map A (λ (a : X) (_ : B), a))
      (Applicative.ap A second).

(** Modelled from the spec: [apSecond_] of [Apply.ts] (missing), "keeping
    only the result of the second":
    [flow(A.map(() => (b) => b), A.ap(second))]. *)
Definition apSecond_ {F} (A : Applicative.Applicative2 F) {E X B}
    (second : F E B) : F E X → F E B :=
  flow
    (Applicative.map A (λ (_ : X) (b : B), b))
    (Applicative.ap A second).

End Apply.

(* ===================================================================== *)
(** * Promise combination                                                 *)
(* ===================================================================== *)

Module Promise.

(** Modelled from the spec: a value "wrapped as asynchronous" that
    "resolves immediately". *)
Definition resolve {A} (a : A) : Promise A := mkPromise a 0.

(** Modelled from the spec: continuing a promise with a pure function;
    the continuation runs when the promise settles. *)
Definition then_ {A B} (p : Promise A) (f : A → B) : Promise B :=
  mkPromise (f (resolved p)) (settled p).

(** Modelled from the spec: continuing a promise with an asynchronous
    step.  The step is started only once [p] has settled ("second starts
    only after first settles"), so its own delay is added. *)
Definition then_await {A B} (p : Promise A) (k : A → Promise B) : Promise B :=
  let q := k (resolved p) in
  mkPromise (resolved q) (settled p + settled q).

(** Modelled from the spec: the "parallel-combination primitive" on two
    promises of different types.  "Both are started without waiting on
    each other; only their combination is sequenced after both settle." *)
Definition all2 {A B} (p : Promise A) (q : Promise B) : Promise (A * B) :=
  mkPromise (resolved p, resolved q) (settled p `max` settled q).

Section all.
Context {A : Type}.

(** Modelled from the spec: the reaction queue of the array
    combination.  The promises are all started together; each one is
    paired with its position in the array and the pairs are served in
    the order in which the promises settle (on a tie, the earlier
    position first).  [enqueue] inserts one reaction in that order. *)
Fixpoint enqueue (e : nat * Promise A) (q : list (nat * Promise A))
  : list (nat * Promise A) :=
  match q with
  | [] => [e]
  | e' :: q' =>
      if decide (settled e.2 ≤ settled e'.2) then e :: e' :: q'
      else e' :: enqueue e q'
  end.

(** Modelled from the spec: the reactions of all the promises of the array,
    queued in the order in which they will be served. *)
Definition reactions (ps : list (Promise A)) : list (nat * Promise A) :=
  foldr enqueue [] (imap pair ps).

(** Modelled from the spec: one reaction stores the value of the
    promise that has just settled at that promise's own position. *)
Definition store (values : list (option A)) (e : nat * Promise A)
  : list (option A) :=
  <[e.1 := Some (resolved e.2)]> values.

(** Modelled from the spec: the array combination ("concurrent start,
    ordered collection").  The result array starts with one empty slot
    per promise; the reactions are served in completion order; the
    combination settles with the last of them and resolves to the
    content of the slots. *)
Definition all (ps : list (Promise A)) : Promise (list A) :=
  let queue := reactions ps in
  let values := foldl store (replicate (length ps) None) queue in
  mkPromise (omap id values)
            (default 0 (settled ∘ snd <$> last queue)).

(** Serving order: a reaction is served no later than the ones behind it. *)
Definition earlier (e e' : nat * Promise A) : Prop :=
  settled e.2 ≤ settled e'.2.

(** The positions of the promises in the order in which they settle. *)
Definition completionOrder (ps : list (Promise A)) : list nat :=
  (reactions ps).*1.
End all.

End Promise.

(* ===================================================================== *)
(** * Task.ts                                                             *)
(* ===================================================================== *)

Module T.

(** Modelled from the spec: [T.of] of [Task.ts] (missing): the task that
    resolves immediately to [a]. *)
Definition of_ {A} (a : A) : Task A := λ _, Promise.resolve a.

(** Modelled from the spec: [T.map] of [Task.ts] (missing): transform the
    eventual result with a pure function. *)
Definition map {A B} (f : A → B) (fa : Task A) : Task B :=
  λ _, Promise.then_ (fa tt) f.

(** Modelled from the spec: [T.ap] of [Task.ts] (missing), the
    collaborator's parallel combination: both tasks are invoked, the
    function-task first, and the function is applied once both have
    settled. *)
Definition ap {A B} (fa : Task A) (fab : Task (A → B)) : Task B :=
  λ _, Promise.then_ (Promise.all2 (fab tt) (fa tt)) (λ '(f, a), f a).

(** Modelled from the spec: [T.chain] of [Task.ts] (missing): run [ma],
    then invoke the task [f] computes from its result. *)
Definition chain {A B} (f : A → Task B) (ma : Task A) : Task B :=
  λ _, Promise.then_await (ma tt) (λ a, f a tt).

(** Modelled from the spec: [T.getSemigroup] of [Task.ts] (missing): run
    both tasks and combine their two results.  The second task is invoked
    when the first has settled; only the resolved value is fixed by the
    spec. *)
Definition getSemigroup {A} (S : Semigroup.Semigroup A)
  : Semigroup.Semigroup (Task A) :=
  {| Semigroup.concat := λ x y, λ _,
       Promise.then_await (x tt) (λ rx,
         Promise.then_ (y tt) (λ ry, Semigroup.concat S rx ry)) |}.

(** Modelled from the spec: [T.sequenceArray] of [Task.ts] (missing): every
    task of the array is invoked, in array order, and the promises are
    handed to the array combination. *)
Definition sequenceArray {A} (arr : list (Task A)) : Task (list A) :=
  λ _, Promise.all ((λ x : Task A, x tt) <$> arr).

(** Modelled from the spec: [T.fromIO] of [Task.ts] (missing), the
    "synchronous-to-asynchronous lift": the operation is performed when the
    task is invoked and its value is available at once. *)
Definition fromIO {A} (ma : IO A) : Task A := λ _, Promise.resolve (ma tt).

End T.

(* ===================================================================== *)
(** * Reader.ts                                                           *)
(* ===================================================================== *)

Module R.

(** Modelled from the spec: [R.of] of [Reader.ts] (missing): the reader
    that ignores the environment. *)
Definition of_ {E A} (a : A) : Reader E A := λ _, a.

(** Modelled from the spec: [R.map] of [Reader.ts] (missing). *)
Definition map {E A B} (f : A → B) (fa : Reader E A) : Reader E B :=
  λ r, f (fa r).

(** Modelled from the spec: [R.getSemigroup] of [Reader.ts] (missing): both
    readers are applied to the same environment. *)
Definition getSemigroup {E A} (S : Semigroup.Semigroup A)
  : Semigroup.Semigroup (Reader E A) :=
  {| Semigroup.concat := λ x y, λ e, Semigroup.concat S (x e) (y e) |}.

(** Modelled from the spec: [R.traverseArrayWithIndex] of [Reader.ts]
    (missing): "applies [f(index, element)] to each element of an input
    ordered sequence", every reader being applied to the same
    environment. *)
Definition traverseArrayWithIndex {E A B} (f : nat → A → Reader E B)
  : list A → Reader E (list B) :=
  λ arr, λ r, imap (λ i x, f i x r) arr.

End R.

(* ===================================================================== *)
(** * ReaderTask.ts                                                       *)
(* ===================================================================== *)

(** Each definition is preceded by the source text it transcribes.  The
    environment requirements [R1 & R2] that the source merges by
    intersection types are one and the same run-time value handed to both
    effects; the embedding uses a single environment type for both.  The
    name [of] is reserved, so the source's [of] is written [of_].  A record
    built by the do notation is a finite map from field names to values, and
    an array index is a natural number.  The rest-argument functions
    [fromIOK] and [fromTaskK] take their argument list as one value, and the
    elements of a tuple share one type. *)
Module ReaderTask.
Import function.

(** ** constructors *)

(** [export const fromTask = R.of] *)
Definition fromTask {R A} : Task A → ReaderTask R A := R.of_.

(** [export const fromReader = (ma) => flow(ma, T.of)] *)
Definition fromReader {R A} (ma : Reader R A) : ReaderTask R A :=
  flow ma T.of_.

(** [export const fromIO = flow(T.fromIO, fromTask)] *)
Definition fromIO {R A} : IO A → ReaderTask R A :=
  flow T.fromIO fromTask.

(** [export const ask = () => T.of] *)
Definition ask {R} : unit → ReaderTask R R := λ _, T.of_.

(** [export const asks = (f) => flow(T.of, T.map(f))] *)
Definition asks {R A} (f : R → A) : ReaderTask R A :=
  flow T.of_ (T.map f).

(** ** combinators *)

(** [export function fromIOK(f) { return (...a) => fromIO(f(...a)) }] *)
Definition fromIOK {R A B} (f : A → IO B) : A → ReaderTask R B :=
  λ a, fromIO (f a).

(** [export function fromTaskK(f) { return (...a) => fromTask(f(...a)) }] *)
Definition fromTaskK {R A B} (f : A → Task B) : A → ReaderTask R B :=
  λ a, fromTask (f a).

(** ** Functor, Apply, Applicative, Monad *)

(** [export const map = (f) => (fa) => flow(fa, T.map(f))] *)
Definition map {R A B} (f : A → B) : ReaderTask R A → ReaderTask R B :=
  λ fa, flow fa (T.map f).

(** [export const apW = (fa) => (fab) => (r) => pipe(fab(r), T.ap(fa(r)))] *)
Definition apW {R A B} (fa : ReaderTask R A)
  : ReaderTask R (A → B) → ReaderTask R B :=
  λ fab, λ r, pipe (fab r) (T.ap (fa r)).

(** [export const ap = apW] *)
Definition ap {R A B}
  : ReaderTask R A → ReaderTask R (A → B) → ReaderTask R B := apW.

(** [export const of = (a) => () => T.of(a)] *)
Definition of_ {R A} (a : A) : ReaderTask R A := λ _, T.of_ a.

(** [export const chainW = (f) => (fa) => (r) =>
      pipe(fa(r), T.chain((a) => f(a)(r)))] *)
Definition chainW {R A B} (f : A → ReaderTask R B)
  : ReaderTask R A → ReaderTask R B :=
  λ fa, λ r, pipe (fa r) (T.chain (λ a, f a r)).

(** [export const chain = chainW] *)
Definition chain {R A B}
  : (A → ReaderTask R B) → ReaderTask R A → ReaderTask R B := chainW.

(** [export const chainIOK = (f) => chain((a) => fromIO(f(a)))] *)
Definition chainIOK {R A B} (f : A → IO B)
  : ReaderTask R A → ReaderTask R B :=
  chain (λ a, fromIO (f a)).

(** [export const chainTaskK = (f) => chain((a) => fromTask(f(a)))] *)
Definition chainTaskK {R A B} (f : A → Task B)
  : ReaderTask R A → ReaderTask R B :=
  chain (λ a, fromTask (f a)).

(** [export const flatten = chain(identity)] *)
Definition flatten {R A} : ReaderTask R (ReaderTask R A) → ReaderTask R A :=
  chain identity.

(** ** instances *)

(** [export const URI = 'ReaderTask'] *)
Definition URI : string := "ReaderTask".

(** [export function getSemigroup(S) {
      return R.getSemigroup(T.getSemigroup(S)) }] *)
Definition getSemigroup {R A} (S : Semigroup.Semigroup A)
  : Semigroup.Semigroup (ReaderTask R A) :=
  R.getSemigroup (T.getSemigroup S).

(** [export function getMonoid(M) {
      return { concat: getSemigroup<R, A>(M).concat, empty: of(M.empty) } }] *)
Definition getMonoid {R A} (M : Monoid.Monoid A)
  : Monoid.Monoid (ReaderTask R A) :=
  {| Monoid.concat := Semigroup.concat (getSemigroup (R := R) M);
     Monoid.empty := of_ (Monoid.empty M) |}.

(** [export const Functor = { URI, map }] *)
Definition Functor : Functor.Functor2 ReaderTask :=
  {| Functor.URI := URI;
     Functor.map := @map |}.

(** [export const ApplicativePar = { URI, map, ap, of }] *)
Definition ApplicativePar : Applicative.Applicative2 ReaderTask :=
  {| Applicative.URI := URI;
     Applicative.map := @map;
     Applicative.ap := @ap;
     Applicative.of_ := @of_ |}.

(** [export const apFirst = apFirst_(ApplicativePar)] *)
Definition apFirst {R A B}
  : ReaderTask R B → ReaderTask R A → ReaderTask R A :=
  Apply.apFirst_ ApplicativePar.

(** [export const apSecond = apSecond_(ApplicativePar)] *)
Definition apSecond {R A B}
  : ReaderTask R B → ReaderTask R A → ReaderTask R B :=
  Apply.apSecond_ ApplicativePar.

(** [export const ApplicativeSeq = {
      URI, map, ap: (fa) => chain((f) => pipe(fa, map(f))), of }] *)
Definition ApplicativeSeq : Applicative.Applicative2 ReaderTask :=
  {| Applicative.URI := URI;
     Applicative.map := @map;
     Applicative.ap := λ R A B (fa : ReaderTask R A),
       chain (λ f : A → B, pipe fa (map f));
     Applicative.of_ := @of_ |}.

(** [export const Monad = { URI, map, of, chain }] *)
Definition Monad : Monad.Monad2 ReaderTask :=
  {| Monad.URI := URI;
     Monad.map := @map;
     Monad.of_ := @of_;
     Monad.chain := @chain |}.

(** [export const chainFirst = chainFirst_(Monad)] *)
Definition chainFirst {R A B}
  : (A → ReaderTask R B) → ReaderTask R A → ReaderTask R A :=
  Monad.chainFirst_ Monad.

(** [export const MonadTask = { URI, fromIO, fromTask }] *)
Definition MonadTask : MonadTask.MonadTask2 ReaderTask :=
  {| MonadTask.URI := URI;
     MonadTask.fromIO := @fromIO;
     MonadTask.fromTask := @fromTask |}.

(** ** do notation *)

(** [export const Do = of({})] *)
Definition Do {R V} : ReaderTask R (gmap string V) := of_ ∅.

(** [export const bindTo = (name) => map(bindTo_(name))] *)
Definition bindTo {R V} (name : string)
  : ReaderTask R V → ReaderTask R (gmap string V) :=
  map (bindTo_ name).

(** [export const bindW = (name, f) =>
      chainW((a) => pipe(f(a), map((b) => bind_(a, name, b))))] *)
Definition bindW {R V} (name : string)
    (f : gmap string V → ReaderTask R V)
  : ReaderTask R (gmap string V) → ReaderTask R (gmap string V) :=
  chainW (λ a,
    pipe
      (f a)
      (map (λ b, bind_ a name b))).

(** [export const bind = bindW] *)
Definition bind {R V}
  : string → (gmap string V → ReaderTask R V) →
    ReaderTask R (gmap string V) → ReaderTask R (gmap string V) := bindW.

(** ** pipeable sequence S *)

(** [export const apSW = (name, fb) =>
      flow(map((a) => (b) => bind_(a, name, b)), apW(fb))] *)
Definition apSW {R V} (name : string) (fb : ReaderTask R V)
  : ReaderTask R (gmap string V) → ReaderTask R (gmap string V) :=
  flow
    (map (λ a, λ b : V, bind_ a name b))
    (apW fb).

(** [export const apS = apSW] *)
Definition apS {R V}
  : string → ReaderTask R V →
    ReaderTask R (gmap string V) → ReaderTask R (gmap string V) := apSW.

(** ** pipeable sequence T *)

(** [export const ApT = of([])] *)
Definition ApT {R V} : ReaderTask R (list V) := of_ [].

(** [export const tupled = map(tuple)] *)
Definition tupled {R V} : ReaderTask R V → ReaderTask R (list V) :=
  map tuple.

(** [export const apTW = (fb) => (fas) =>
      pipe(fas, map((a) => (b) => [...a, b]), apW(fb))] *)
Definition apTW {R V} (fb : ReaderTask R V)
  : ReaderTask R (list V) → ReaderTask R (list V) :=
  λ fas,
    pipe3
      fas
      (map (λ (a : list V) (b : V), a ++ [b]))
      (apW fb).

(** [export const apT = apTW] *)
Definition apT {R V}
  : ReaderTask R V → ReaderTask R (list V) → ReaderTask R (list V) := apTW.

(** ** array utils *)

(** [export const traverseArrayWithIndex = (f) =>
      flow(R.traverseArrayWithIndex(f), R.map(T.sequenceArray))] *)
Definition traverseArrayWithIndex {R A B} (f : nat → A → ReaderTask R B)
  : list A → ReaderTask R (list B) :=
  flow (R.traverseArrayWithIndex f) (R.map T.sequenceArray).

(** [export const traverseArray = (f) =>
      traverseArrayWithIndex((_, a) => f(a))] *)
Definition traverseArray {R A B} (f : A → ReaderTask R B)
  : list A → ReaderTask R (list B) :=
  traverseArrayWithIndex (λ _ a, f a).

(** [export const sequenceArray = traverseArray(identity)] *)
Definition sequenceArray {R A}
  : list (ReaderTask R A) → ReaderTask R (list A) :=
  traverseArray identity.

End ReaderTask.

(* ===================================================================== *)
(** * Tasks that observe when they are started                            *)
(* ===================================================================== *)

(** The two applicative disciplines, and [apS] against [bind], differ in
    the instant at which they start their second effect.  To tell what
    that does to the result, the combinators concerned are transcribed a
    second time over [StartedTask]. *)
Module Started.

(** A task with a fixed outcome, seen as a task that ignores its start. *)
Definition lift {A} (t : Task A) : StartedTask A := λ _, t tt.

(** The value the task resolves to does not depend on its start. *)
Definition startIndependent {A} (t : StartedTask A) : Prop :=
  ∀ start start', resolved (t start) = resolved (t start').

(** The delay of the task does not depend on its start. *)
Definition fixedDelay {A} (t : StartedTask A) : Prop :=
  ∀ start start', settled (t start) = settled (t start').

Module T.

(** Modelled from the spec: [T.of] of [Task.ts] (missing), whenever it is
    started. *)
Definition of_ {A} (a : A) : StartedTask A := λ _, Promise.resolve a.

(** Modelled from the spec: [T.map] of [Task.ts] (missing): the task is
    started when the mapped task is. *)
Definition map {A B} (f : A → B) (fa : StartedTask A) : StartedTask B :=
  λ start, Promise.then_ (fa start) f.

(** Modelled from the spec: [T.ap] of [Task.ts] (missing): "both are started
    without waiting on each other", at the instant the combination is
    started. *)
Definition ap {A B} (fa : StartedTask A) (fab : StartedTask (A → B))
  : StartedTask B :=
  λ start,
    Promise.then_ (Promise.all2 (fab start) (fa start)) (λ '(f, a), f a).

(** Modelled from the spec: [T.chain] of [Task.ts] (missing): "second
    starts only after first settles", that is at the instant [ma], started
    at [start], settles. *)
Definition chain {A B} (f : A → StartedTask B) (ma : StartedTask A)
  : StartedTask B :=
  λ start,
    Promise.then_await (ma start) (λ a, f a (start + settled (ma start))).

End T.

Module ReaderTask.
Import function.

(** [export const map = (f) => (fa) => flow(fa, T.map(f))] *)
Definition map {R A B} (f : A → B)
  : StartedReaderTask R A → StartedReaderTask R B :=
  λ fa, flow fa (T.map f).

(** [export const apW = (fa) => (fab) => (r) => pipe(fab(r), T.ap(fa(r)))] *)
Definition apW {R A B} (fa : StartedReaderTask R A)
  : StartedReaderTask R (A → B) → StartedReaderTask R B :=
  λ fab, λ r, pipe (fab r) (T.ap (fa r)).

(** [export const ap = apW] *)
Definition ap {R A B}
  : StartedReaderTask R A → StartedReaderTask R (A → B) →
    StartedReaderTask R B := apW.

(** [export const of = (a) => () => T.of(a)] *)
Definition of_ {R A} (a : A) : StartedReaderTask R A := λ _, T.of_ a.

(** [export const chainW = (f) => (fa) => (r) =>
      pipe(fa(r), T.chain((a) => f(a)(r)))] *)
Definition chainW {R A B} (f : A → StartedReaderTask R B)
  : StartedReaderTask R A → StartedReaderTask R B :=
  λ fa, λ r, pipe (fa r) (T.chain (λ a, f a r)).

(** [export const chain = chainW] *)
Definition chain {R A B}
  : (A → StartedReaderTask R B) → StartedReaderTask R A →
    StartedReaderTask R B := chainW.

(** [export const URI = 'ReaderTask'] *)
Definition URI : string := "ReaderTask".

(** [export const ApplicativePar = { URI, map, ap, of }] *)
Definition ApplicativePar : Applicative.Applicative2 StartedReaderTask :=
  {| Applicative.URI := URI;
     Applicative.map := @map;
     Applicative.ap := @ap;
     Applicative.of_ := @of_ |}.

(** [export const ApplicativeSeq = {
      URI, map, ap: (fa) => chain((f) => pipe(fa, map(f))), of }] *)
Definition ApplicativeSeq : Applicative.Applicative2 StartedReaderTask :=
  {| Applicative.URI := URI;
     Applicative.map := @map;
     Applicative.ap := λ R A B (fa : StartedReaderTask R A),
       chain (λ f : A → B, pipe fa (map f));
     Applicative.of_ := @of_ |}.

(** [export const bindW = (name, f) =>
      chainW((a) => pipe(f(a), map((b) => bind_(a, name, b))))] *)
Definition bindW {R V} (name : string)
    (f : gmap string V → StartedReaderTask R V)
  : StartedReaderTask R (gmap string V) →
    StartedReaderTask R (gmap string V) :=
  chainW (λ a,
    pipe
      (f a)
      (map (λ b, bind_ a name b))).

(** [export const bind = bindW] *)
Definition bind {R V}
  : string → (gmap string V → StartedReaderTask R V) →
    StartedReaderTask R (gmap string V) →
    StartedReaderTask R (gmap string V) := bindW.

(** [export const apSW = (name, fb) =>
      flow(map((a) => (b) => bind_(a, name, b)), apW(fb))] *)
Definition apSW {R V} (name : string) (fb : StartedReaderTask R V)
  : StartedReaderTask R (gmap string V) →
    StartedReaderTask R (gmap string V) :=
  flow
    (map (λ a, λ b : V, bind_ a name b))
    (apW fb).

(** [export const apS = apSW] *)
Definition apS {R V}
  : string → StartedReaderTask R V →
    StartedReaderTask R (gmap string V) →
    StartedReaderTask R (gmap string V) := apSW.

End ReaderTask.

End Started.


(* ===================================================================== *)
(** * Laws and scenarios                                                  *)
(* ===================================================================== *)

(** The applicative laws of an instance, effects being compared on the
    value they resolve to in every environment.  The laws are usually
    written [ap(fab)(fa)]; the instances of this module take the
    effect-of-argument first: [ap fa fab]. *)
Record ApplicativeLaws (F : Applicative.Applicative2 ReaderTask) : Prop := {
  ap_identity : ∀ R A (fa : ReaderTask R A) (r : R),
    resolves (Applicative.ap F fa (Applicative.of_ F function.identity) r)
    = resolves (fa r);
  ap_homomorphism : ∀ R A B (f : A → B) (a : A) (r : R),
    resolves (Applicative.ap F (Applicative.of_ F a) (Applicative.of_ F f) r)
    = resolves (Applicative.of_ F (f a) r);
  ap_interchange : ∀ R A B (fab : ReaderTask R (A → B)) (a : A) (r : R),
    resolves (Applicative.ap F (Applicative.of_ F a) fab r)
    = resolves (Applicative.ap F fab
                  (Applicative.of_ F (λ f : A → B, f a)) r)
}.

(** A two-sided identity of a monoid. *)
Definition identityOf {A} (M : Monoid.Monoid A) : Prop :=
  ∀ a, Monoid.concat M (Monoid.empty M) a = a
     ∧ Monoid.concat M a (Monoid.empty M) = a.

(** An associative combine operation. *)
Definition associativeOf {A} (S : Semigroup.Semigroup A) : Prop :=
  ∀ a b c,
    Semigroup.concat S (Semigroup.concat S a b) c
    = Semigroup.concat S a (Semigroup.concat S b c).

Module Scenario.

(** The environment [{ n: number }] of the concrete scenario. *)
Record Env : Type := { n : Z }.

(** A task that resolves to [a] after [millis] units of time. *)
Definition delay {A} (millis : nat) (a : A) : Task A :=
  λ _, mkPromise a millis.

(** A task that resolves, at once, to the instant at which it is started,
    as a task reading the clock does. *)
Definition now : StartedTask nat := λ start, mkPromise start 0.

(** The monoid of numbers under addition. *)
Definition MonoidSum : Monoid.Monoid Z :=
  {| Monoid.concat := Z.add; Monoid.empty := 0%Z |}.

End Scenario.

(* ===================================================================== *)
(** * The array combination resolves positionally                         *)
(* ===================================================================== *)

Section all_facts.
Context {A : Type}.
Implicit Types (ps : list (Promise A)) (q : list (nat * Promise A)).
Implicit Types (values : list (option A)) (e : nat * Promise A).

Lemma enqueue_Permutation e q : Promise.enqueue e q ≡ₚ e :: q.
Proof.
  induction q as [|e' q IH]; simpl; [done|].
  case_decide; [done|].
  rewrite IH. apply Permutation_swap.
Qed.

Lemma reactions_Permutation ps : Promise.reactions ps ≡ₚ imap pair ps.
Proof.
  unfold Promise.reactions.
  induction (imap pair ps) as [|e l IH]; simpl; [done|].
  by rewrite enqueue_Permutation, IH.
Qed.

Lemma enqueue_sorted e q :
  StronglySorted Promise.earlier q → StronglySorted Promise.earlier (Promise.enqueue e q).
Proof.
  induction 1 as [|e' q Hq IH Hall]; simpl.
  - repeat constructor.
  - case_decide as Hle.
    + constructor; [by constructor|].
      constructor; [done|].
      eapply Forall_impl; [exact Hall|].
      unfold Promise.earlier in *. intros; lia.
    + constructor; [done|].
      rewrite enqueue_Permutation. constructor; [|done].
      unfold Promise.earlier. lia.
Qed.

Lemma reactions_sorted ps : StronglySorted Promise.earlier (Promise.reactions ps).
Proof.
  unfold Promise.reactions.
  induction (imap pair ps) as [|e l IH]; simpl; [constructor|].
  by apply enqueue_sorted.
Qed.

Lemma reactions_positions ps :
  (Promise.reactions ps).*1 ≡ₚ seq 0 (length ps).
Proof.
  rewrite reactions_Permutation, fmap_imap.
  rewrite (imap_ext _ (λ j _, id j)) by done.
  by rewrite (imap_seq_0 ps id), list_fmap_id.
Qed.

Lemma elem_of_reactions ps i p :
  (i, p) ∈ Promise.reactions ps ↔ ps !! i = Some p.
Proof.
  rewrite reactions_Permutation, elem_of_lookup_imap. split.
  - by intros (j & y & [= -> ->] & ?).
  - intros ?. by exists i, p.
Qed.

Lemma length_foldl_store values q :
  length (foldl Promise.store values q) = length values.
Proof.
  revert values. induction q as [|e q IH]; intros values; simpl; [done|].
  rewrite IH. apply length_insert.
Qed.

(** A slot nobody writes to keeps its content. *)
Lemma foldl_store_untouched values q i :
  i ∉ q.*1 → foldl Promise.store values q !! i = values !! i.
Proof.
  revert values. induction q as [|e q IH]; intros values Hi; simpl; [done|].
  rewrite fmap_cons, not_elem_of_cons in Hi. destruct Hi as [Hne Hi].
  rewrite IH by done. unfold Promise.store.
  by rewrite list_lookup_insert_ne.
Qed.

(** A slot written once holds what was written, whenever that happened. *)
Lemma foldl_store_written values q i p :
  NoDup q.*1 → (i, p) ∈ q → i < length values →
  foldl Promise.store values q !! i = Some (Some (resolved p)).
Proof.
  revert values. induction q as [|e q IH]; intros values Hnd Hin Hi; simpl.
  - by apply elem_of_nil in Hin.
  - rewrite fmap_cons, NoDup_cons in Hnd. destruct Hnd as [Hfresh Hnd].
    apply elem_of_cons in Hin as [<-|Hin].
    + rewrite foldl_store_untouched by done.
      unfold Promise.store; simpl. by apply list_lookup_insert_eq.
    + apply IH; [done..|]. unfold Promise.store. by rewrite length_insert.
Qed.

Lemma omap_id_Some (l : list A) : omap id (Some <$> l) = l.
Proof. induction l as [|x l IH]; [done|]. simpl. f_equal. exact IH. Qed.

(** Whatever the order in which the promises settle, the slots end up
    holding the values in array order. *)
Lemma all_values ps :
  foldl Promise.store (replicate (length ps) None) (Promise.reactions ps)
  = Some <$> (resolved <$> ps).
Proof.
  apply list_eq; intros i.
  rewrite !list_lookup_fmap.
  destruct (ps !! i) as [p|] eqn:Hp; simpl.
  - apply foldl_store_written.
    + rewrite reactions_positions. apply NoDup_seq.
    + by apply elem_of_reactions.
    + rewrite length_replicate. by eapply lookup_lt_Some.
  - apply lookup_ge_None. rewrite length_foldl_store, length_replicate.
    by apply lookup_ge_None.
Qed.

Lemma all_resolved ps : resolved (Promise.all ps) = resolved <$> ps.
Proof.
  unfold Promise.all; cbv zeta; cbn [resolved].
  by rewrite all_values, omap_id_Some.
Qed.

Lemma last_sorted q :
  StronglySorted Promise.earlier q →
  default 0 (settled ∘ snd <$> last q) = max_list (settled ∘ snd <$> q).
Proof.
  induction 1 as [|e q Hq IH Hall]; [done|].
  rewrite last_cons, fmap_cons.
  change (max_list (?x :: ?l)) with (x `max` max_list l).
  rewrite <- IH. destruct (last q) as [e'|] eqn:Hlast; simpl.
  - assert (e' ∈ q) as Hin.
    { apply last_Some in Hlast as [l ->]. set_solver. }
    rewrite Forall_forall in Hall. specialize (Hall _ Hin).
    unfold Promise.earlier in Hall. lia.
  - lia.
Qed.

Lemma max_list_Permutation (l k : list nat) :
  l ≡ₚ k → max_list l = max_list k.
Proof. induction 1; simpl; lia. Qed.

(** The combination settles when the slowest of its promises does. *)
Lemma all_settled ps : settled (Promise.all ps) = max_list (settled <$> ps).
Proof.
  unfold Promise.all; cbv zeta; cbn [settled].
  rewrite last_sorted by apply reactions_sorted.
  rewrite (max_list_Permutation _ (settled ∘ snd <$> imap pair ps)).
  - rewrite fmap_imap.
    rewrite (imap_ext _ (const settled)) by done.
    by rewrite imap_const.
  - by rewrite reactions_Permutation.
Qed.

End all_facts.

(* ===================================================================== *)
(** * Running the collaborators' combinators                              *)
(* ===================================================================== *)

Lemma resolves_T_of {A} (a : A) : resolves (T.of_ a) = a.
Proof. reflexivity. Qed.

Lemma resolves_T_map {A B} (f : A → B) (fa : Task A) :
  resolves (T.map f fa) = f (resolves fa).
Proof. reflexivity. Qed.

Lemma resolves_T_chain {A B} (f : A → Task B) (ma : Task A) :
  resolves (T.chain f ma) = resolves (f (resolves ma)).
Proof. reflexivity. Qed.

Lemma resolves_T_ap {A B} (fa : Task A) (fab : Task (A → B)) :
  resolves (T.ap fa fab) = (resolves fab) (resolves fa).
Proof. reflexivity. Qed.

Lemma resolves_T_concat {A} (S : Semigroup.Semigroup A) (x y : Task A) :
  resolves (Semigroup.concat (T.getSemigroup S) x y)
  = Semigroup.concat S (resolves x) (resolves y).
Proof. reflexivity. Qed.

Lemma resolves_T_sequenceArray {A} (arr : list (Task A)) :
  resolves (T.sequenceArray arr) = resolves <$> arr.
Proof.
  unfold resolves at 1, T.sequenceArray.
  rewrite all_resolved, <- list_fmap_compose. done.
Qed.

Lemma settles_T_chain {A B} (f : A → Task B) (ma : Task A) :
  settles (T.chain f ma) = settles ma + settles (f (resolves ma)).
Proof. reflexivity. Qed.

Lemma settles_T_ap {A B} (fa : Task A) (fab : Task (A → B)) :
  settles (T.ap fa fab) = settles fab `max` settles fa.
Proof. reflexivity. Qed.

Lemma settles_T_sequenceArray {A} (arr : list (Task A)) :
  settles (T.sequenceArray arr) = max_list (settles <$> arr).
Proof.
  unfold settles at 1, T.sequenceArray.
  rewrite all_settled, <- list_fmap_compose. done.
Qed.

Create Rewrite HintDb task.
#[global] Hint Rewrite @resolves_T_of @resolves_T_map @resolves_T_chain @resolves_T_ap
  @resolves_T_concat @resolves_T_sequenceArray : task.

(** Unfold the module's combinators down to the collaborators', then run
    those. *)
Ltac run :=
  unfold ReaderTask.sequenceArray, ReaderTask.traverseArray,
    ReaderTask.traverseArrayWithIndex, ReaderTask.bind, ReaderTask.bindW,
    ReaderTask.chain, ReaderTask.chainW, ReaderTask.ap, ReaderTask.apW,
    ReaderTask.map, ReaderTask.of_, ReaderTask.ask, ReaderTask.asks,
    ReaderTask.fromTask, ReaderTask.getSemigroup,
    R.traverseArrayWithIndex, R.map, R.of_, R.getSemigroup,
    function.flow, function.pipe, function.identity, function.bind_;
  cbn [Applicative.ap Applicative.of_ Applicative.map Semigroup.concat
       Monoid.concat Monoid.empty Monoid.toSemigroup
       ReaderTask.ApplicativePar ReaderTask.ApplicativeSeq
       ReaderTask.getMonoid];
  autorewrite with task.

(* ===================================================================== *)
(** * Functor                                                             *)
(* ===================================================================== *)

(** C4 -- functor laws.  For every effect [fa] and environment [r],
    [map(id)(fa)(r)] resolves to what [fa(r)] resolves to, and for all pure
    functions [f] and [g], [map(g ∘ f)(fa)(r)] resolves to what
    [map(g)(map(f)(fa))(r)] resolves to. *)
Theorem map_functor_laws {R A B C} (f : A → B) (g : B → C)
    (fa : ReaderTask R A) (r : R) :
  resolves (ReaderTask.map function.identity fa r) = resolves (fa r)
  ∧ resolves (ReaderTask.map (g ∘ f) fa r)
    = resolves (ReaderTask.map g (ReaderTask.map f fa) r).
Proof. split; run; reflexivity. Qed.

(* ===================================================================== *)
(** * Monad                                                               *)
(* ===================================================================== *)

(** What [chain] does in one environment: run the effect, hand its result
    to [f], run the effect [f] returns in the same environment. *)
Lemma resolves_chain {R A B} (f : A → ReaderTask R B) (m : ReaderTask R A) r :
  resolves (ReaderTask.chain f m r) = resolves (f (resolves (m r)) r).
Proof. run. reflexivity. Qed.

Lemma settles_chain {R A B} (f : A → ReaderTask R B) (m : ReaderTask R A) r :
  settles (ReaderTask.chain f m r)
  = settles (m r) + settles (f (resolves (m r)) r).
Proof. reflexivity. Qed.

Lemma resolves_of {R A} (a : A) (r : R) : resolves (ReaderTask.of_ a r) = a.
Proof. reflexivity. Qed.

Lemma resolves_map {R A B} (f : A → B) (fa : ReaderTask R A) r :
  resolves (ReaderTask.map f fa r) = f (resolves (fa r)).
Proof. reflexivity. Qed.

(** C2 -- monad laws.  Run against any environment [r] and compared on
    resolved results: [chain(f)(of(a)) = f(a)] (left identity),
    [chain(of)(m) = m] (right identity) and
    [chain(g)(chain(f)(m)) = chain(a => chain(g)(f(a)))(m)]
    (associativity). *)
Theorem chain_of_monad_laws {R A B C} (a : A) (f : A → ReaderTask R B)
    (g : B → ReaderTask R C) (m : ReaderTask R A) (r : R) :
  resolves (ReaderTask.chain f (ReaderTask.of_ a) r) = resolves (f a r)
  ∧ resolves (ReaderTask.chain ReaderTask.of_ m r) = resolves (m r)
  ∧ resolves (ReaderTask.chain g (ReaderTask.chain f m) r)
    = resolves (ReaderTask.chain (λ a, ReaderTask.chain g (f a)) m r).
Proof.
  split; [|split].
  - by rewrite resolves_chain, resolves_of.
  - by rewrite resolves_chain, resolves_of.
  - by rewrite !resolves_chain.
Qed.

(** The monad laws hold for the schedule as well: both sides of each law
    settle at the same instant. *)
Lemma chain_of_settles {R A B C} (a : A) (f : A → ReaderTask R B)
    (g : B → ReaderTask R C) (m : ReaderTask R A) (r : R) :
  settles (ReaderTask.chain f (ReaderTask.of_ a) r) = settles (f a r)
  ∧ settles (ReaderTask.chain ReaderTask.of_ m r) = settles (m r)
  ∧ settles (ReaderTask.chain g (ReaderTask.chain f m) r)
    = settles (ReaderTask.chain (λ a, ReaderTask.chain g (f a)) m r).
Proof.
  split; [|split].
  - by rewrite settles_chain, resolves_of.
  - rewrite settles_chain. unfold settles at 2; simpl. lia.
  - rewrite !settles_chain, resolves_chain. lia.
Qed.

(* ===================================================================== *)
(** * The two applicative disciplines                                     *)
(* ===================================================================== *)

Lemma resolves_ap_par {R A B} (fa : ReaderTask R A)
    (fab : ReaderTask R (A → B)) r :
  resolves (Applicative.ap ReaderTask.ApplicativePar fa fab r)
  = (resolves (fab r)) (resolves (fa r)).
Proof. reflexivity. Qed.

Lemma resolves_ap_seq {R A B} (fa : ReaderTask R A)
    (fab : ReaderTask R (A → B)) r :
  resolves (Applicative.ap ReaderTask.ApplicativeSeq fa fab r)
  = (resolves (fab r)) (resolves (fa r)).
Proof.
  cbn [Applicative.ap ReaderTask.ApplicativeSeq].
  by rewrite resolves_chain.
Qed.

Lemma settles_ap_par {R A B} (fa : ReaderTask R A)
    (fab : ReaderTask R (A → B)) r :
  settles (Applicative.ap ReaderTask.ApplicativePar fa fab r)
  = settles (fab r) `max` settles (fa r).
Proof. reflexivity. Qed.

Lemma settles_ap_seq {R A B} (fa : ReaderTask R A)
    (fab : ReaderTask R (A → B)) r :
  settles (Applicative.ap ReaderTask.ApplicativeSeq fa fab r)
  = settles (fab r) + settles (fa r).
Proof. reflexivity. Qed.

(** C1 -- the sequential instance's [ap] is the chain-derived one.  For
    every effect-of-function [fab] and effect-of-argument [fa],
    [ApplicativeSeq.ap(fa)(fab)] and [chain(f => map(f)(fa))(fab)] are the
    same function of the environment; in each environment the
    function-effect is run first and the argument-effect after it. *)
Theorem ApplicativeSeq_ap_is_chain {R A B} (fa : ReaderTask R A)
    (fab : ReaderTask R (A → B)) :
  Applicative.ap ReaderTask.ApplicativeSeq fa fab
  = ReaderTask.chain (λ f, ReaderTask.map f fa) fab
  ∧ ∀ r : R,
      Applicative.ap ReaderTask.ApplicativeSeq fa fab r
      = T.chain (λ f, T.map f (fa r)) (fab r).
Proof. split; [|intros r]; reflexivity. Qed.

Lemma ApplicativePar_lawful : ApplicativeLaws ReaderTask.ApplicativePar.
Proof. split; intros; by rewrite ?resolves_ap_par. Qed.

Lemma ApplicativeSeq_lawful : ApplicativeLaws ReaderTask.ApplicativeSeq.
Proof. split; intros; by rewrite ?resolves_ap_seq. Qed.

(** C3 -- applicative laws.  Both instances, [ApplicativePar] and
    [ApplicativeSeq], satisfy with the shared [of]: identity
    [ap(of(id))(fa) = fa], homomorphism [ap(of(f))(of(a)) = of(f(a))] and
    interchange [ap(fab)(of(a)) = ap(of(f => f(a)))(fab)], compared on
    resolved results for every environment. *)
Theorem applicative_laws_par_seq :
  ApplicativeLaws ReaderTask.ApplicativePar
  ∧ ApplicativeLaws ReaderTask.ApplicativeSeq
  ∧ @Applicative.of_ _ ReaderTask.ApplicativePar
    = @Applicative.of_ _ ReaderTask.ApplicativeSeq.
Proof.
  split; [apply ApplicativePar_lawful|].
  split; [apply ApplicativeSeq_lawful|reflexivity].
Qed.

(** A task with a fixed outcome resolves to the same value whenever it is
    started. *)
Lemma lift_startIndependent {A} (t : Task A) :
  Started.startIndependent (Started.lift t)
  ∧ Started.fixedDelay (Started.lift t).
Proof. split; intros start start'; reflexivity. Qed.

(** On tasks with a fixed outcome the combinators over [StartedTask] are
    the combinators over [Task]. *)
Lemma lift_commutes {A B} (a : A) (g : A → B) (f : A → Task B)
    (t : Task A) (tf : Task (A → B)) :
  Started.T.of_ a = Started.lift (T.of_ a)
  ∧ Started.T.map g (Started.lift t) = Started.lift (T.map g t)
  ∧ Started.T.ap (Started.lift t) (Started.lift tf)
    = Started.lift (T.ap t tf)
  ∧ Started.T.chain (λ a, Started.lift (f a)) (Started.lift t)
    = Started.lift (T.chain f t).
Proof. repeat split. Qed.

(** The parallel [ap] starts the argument effect with the function effect. *)
Lemma resolved_ap_par_started {R A B} (fa : StartedReaderTask R A)
    (fab : StartedReaderTask R (A → B)) (r : R) (start : nat) :
  resolved (Applicative.ap Started.ReaderTask.ApplicativePar fa fab r start)
  = (resolved (fab r start)) (resolved (fa r start)).
Proof. reflexivity. Qed.

(** The sequential [ap] starts the argument effect at the instant the
    function effect settles. *)
Lemma resolved_ap_seq_started {R A B} (fa : StartedReaderTask R A)
    (fab : StartedReaderTask R (A → B)) (r : R) (start : nat) :
  resolved (Applicative.ap Started.ReaderTask.ApplicativeSeq fa fab r start)
  = (resolved (fab r start))
      (resolved (fa r (start + settled (fab r start)))).
Proof. reflexivity. Qed.




(** For tasks with a fixed outcome the two disciplines are told apart by
    their schedule: the parallel one settles with the slower of the two
    effects, the sequential one after both delays have elapsed in turn. *)
Example ap_par_seq_differ_in_schedule :
  let fab : ReaderTask unit (Z → Z) :=
    ReaderTask.fromTask (Scenario.delay 20 (Z.add 1)) in
  let fa : ReaderTask unit Z := ReaderTask.fromTask (Scenario.delay 30 41%Z) in
  settles (Applicative.ap ReaderTask.ApplicativePar fa fab tt) = 30
  ∧ settles (Applicative.ap ReaderTask.ApplicativeSeq fa fab tt) = 50
  ∧ resolves (Applicative.ap ReaderTask.ApplicativePar fa fab tt) = 42%Z
  ∧ resolves (Applicative.ap ReaderTask.ApplicativeSeq fa fab tt) = 42%Z.
Proof. repeat split. Qed.

(* ===================================================================== *)
(** * Constructors                                                        *)
(* ===================================================================== *)

(** C7 -- [ask] and [asks] read the environment.  For every environment
    [r], [ask()] applied to [r] resolves to [r] itself and [asks(f)] applied
    to [r] resolves to [f(r)]; [pipe(ask<{n:number}>(), map(r => r.n * 2))]
    applied to [{n:21}] resolves to [42]. *)
Theorem ask_asks_read_environment {R A} (f : R → A) (r : R) :
  resolves (ReaderTask.ask tt r) = r
  ∧ resolves (ReaderTask.asks f r) = f r
  ∧ resolves
      (function.pipe (ReaderTask.ask tt)
         (ReaderTask.map (λ r : Scenario.Env, Scenario.n r * 2)%Z)
         {| Scenario.n := 21 |})
    = 42%Z.
Proof. split; [|split]; run; reflexivity. Qed.

(** C8 -- [fromTask] is environment-independent.  For every task [ma] and
    any two environments [r1] and [r2], [fromTask(ma)(r1)] and
    [fromTask(ma)(r2)] are the very task [ma], and the effect resolves to
    the task's own result. *)
Theorem fromTask_ignores_environment {R A} (ma : Task A) (r1 r2 : R) :
  ReaderTask.fromTask ma r1 = ma
  ∧ ReaderTask.fromTask ma r2 = ma
  ∧ ReaderTask.fromTask ma r1 = ReaderTask.fromTask ma r2
  ∧ resolves (ReaderTask.fromTask ma r1) = resolves ma.
Proof. unfold ReaderTask.fromTask, R.of_. done. Qed.

(* ===================================================================== *)
(** * Semigroup and Monoid                                                *)
(* ===================================================================== *)

Lemma resolves_concat {R A} (S : Semigroup.Semigroup A)
    (x y : ReaderTask R A) (r : R) :
  resolves (Semigroup.concat (ReaderTask.getSemigroup S) x y r)
  = Semigroup.concat S (resolves (x r)) (resolves (y r)).
Proof. run. reflexivity. Qed.

(** C9 -- [getSemigroup] and [getMonoid] combine pointwise.  For every
    semigroup [S], effects [x], [y] and environment [r],
    [getSemigroup(S).concat(x, y)(r)] resolves to [S.concat] of what [x] and
    [y] resolve to at [r]; [getMonoid(M).empty] is [of(M.empty)], and it is
    a two-sided identity of the derived [concat] whenever [M.empty] is one
    of [M.concat]. *)
Theorem getSemigroup_getMonoid_pointwise {R A} (S : Semigroup.Semigroup A)
    (M : Monoid.Monoid A) (x y : ReaderTask R A) (r : R) :
  resolves (Semigroup.concat (ReaderTask.getSemigroup S) x y r)
  = Semigroup.concat S (resolves (x r)) (resolves (y r))
  ∧ Monoid.empty (ReaderTask.getMonoid (R := R) M)
    = ReaderTask.of_ (Monoid.empty M)
  ∧ (identityOf M →
     let M' := ReaderTask.getMonoid (R := R) M in
     resolves (Monoid.concat M' (Monoid.empty M') x r) = resolves (x r)
     ∧ resolves (Monoid.concat M' x (Monoid.empty M') r) = resolves (x r)).
Proof.
  split; [apply resolves_concat|]. split; [reflexivity|].
  intros Hid M'. subst M'. cbn [ReaderTask.getMonoid Monoid.concat Monoid.empty].
  rewrite !resolves_concat, !resolves_of.
  cbn [Semigroup.concat Monoid.toSemigroup]. apply Hid.
Qed.

Lemma getSemigroup_getMonoid_pointwise_witness :
  identityOf Scenario.MonoidSum
  ∧ (let M' := ReaderTask.getMonoid (R := unit) Scenario.MonoidSum in
     let x := ReaderTask.fromTask (Scenario.delay 10 5%Z) in
     resolves (Monoid.concat M' (Monoid.empty M') x tt) = resolves (x tt)
     ∧ resolves (Monoid.concat M' x (Monoid.empty M') tt) = resolves (x tt)).
Proof.
  assert (identityOf Scenario.MonoidSum) as Hid.
  { intros a. simpl. lia. }
  split; [exact Hid|].
  exact (proj2 (proj2
    (getSemigroup_getMonoid_pointwise (R := unit)
       Scenario.MonoidSum Scenario.MonoidSum
       (ReaderTask.fromTask (Scenario.delay 10 5%Z))
       (ReaderTask.of_ 0%Z) tt)) Hid).
Defined.

(* ===================================================================== *)
(** * Do notation                                                         *)
(* ===================================================================== *)

Lemma resolves_bind {R V} (name : string) (f : gmap string V → ReaderTask R V)
    (fa : ReaderTask R (gmap string V)) (r : R) :
  resolves (ReaderTask.bind name f fa r)
  = <[name := resolves (f (resolves (fa r)) r)]> (resolves (fa r)).
Proof. reflexivity. Qed.

(** C6 -- do-notation is the explicit composition.  For every
    accumulated-record effect [fa], field name and field producer [f],
    [bind(name, f)(fa)] is
    [chain(a => map(b => a extended with name ↦ b)(f(a)))(fa)], so in every
    environment it resolves to the record [fa] resolves to, extended with
    the field; a later [bind] is handed the record with the earlier field
    already bound. *)
Theorem bind_is_chain_map {R V} (name name' : string)
    (f f' : gmap string V → ReaderTask R V)
    (fa : ReaderTask R (gmap string V)) (r : R) :
  ReaderTask.bind name f fa
  = ReaderTask.chain
      (λ a, ReaderTask.map (λ b, <[name := b]> a) (f a)) fa
  ∧ resolves (ReaderTask.bind name f fa r)
    = resolves
        (ReaderTask.chain
           (λ a, ReaderTask.map (λ b, <[name := b]> a) (f a)) fa r)
  ∧ resolves (ReaderTask.bind name f fa r)
    = <[name := resolves (f (resolves (fa r)) r)]> (resolves (fa r))
  ∧ resolves (ReaderTask.bind name' f' (ReaderTask.bind name f fa) r)
    = (let a := resolves (ReaderTask.bind name f fa r) in
       <[name' := resolves (f' a r)]> a).
Proof.
  split; [reflexivity|]. split; [reflexivity|].
  split; [apply resolves_bind|]. by rewrite (resolves_bind name').
Qed.

(** A field bound earlier is read by a later field computation. *)
Example Do_bind_sees_earlier_fields :
  resolves
    (ReaderTask.bind "y"
       (λ a, ReaderTask.of_ (default 0 (a !! "x") + 1)%Z)
       (ReaderTask.bind "x" (λ _, ReaderTask.asks Scenario.n)
          ReaderTask.Do)
       {| Scenario.n := 20 |})
  = {[ "x" := 20%Z; "y" := 21%Z ]}.
Proof.
  rewrite !resolves_bind. unfold ReaderTask.Do, ReaderTask.asks, function.flow.
  rewrite resolves_of, resolves_T_map, resolves_T_of. cbn [Scenario.n].
  rewrite lookup_insert_eq. cbn [default].
  apply map_eq; intros k.
  destruct (decide (k = "y")) as [->|]; [by simplify_map_eq|].
  destruct (decide (k = "x")) as [->|]; by simplify_map_eq.
Qed.

(* ===================================================================== *)
(** * Array traversal                                                     *)
(* ===================================================================== *)

Lemma resolves_traverseArrayWithIndex {R A B} (f : nat → A → ReaderTask R B)
    (arr : list A) (r : R) :
  resolves (ReaderTask.traverseArrayWithIndex f arr r)
  = imap (λ i a, resolves (f i a r)) arr.
Proof.
  unfold ReaderTask.traverseArrayWithIndex, function.flow, R.map,
    R.traverseArrayWithIndex.
  by rewrite resolves_T_sequenceArray, fmap_imap.
Qed.

Lemma resolves_traverseArray {R A B} (f : A → ReaderTask R B)
    (arr : list A) (r : R) :
  resolves (ReaderTask.traverseArray f arr r)
  = (λ a, resolves (f a r)) <$> arr.
Proof.
  unfold ReaderTask.traverseArray.
  rewrite resolves_traverseArrayWithIndex. apply imap_const.
Qed.

Lemma resolves_sequenceArray {R A} (arr : list (ReaderTask R A)) (r : R) :
  resolves (ReaderTask.sequenceArray arr r) = (λ t, resolves (t r)) <$> arr.
Proof. unfold ReaderTask.sequenceArray. apply resolves_traverseArray. Qed.

(** C5 -- traversal preserves input order.  [traverseArray(f)(arr)]
    resolves to the results of [f] on the elements of [arr], position by
    position, whatever the instants at which the underlying asynchronous
    computations settle; [traverseArray(f)([a,b,c])] resolves to
    [[f(a), f(b), f(c)]], and [sequenceArray([of(1), of(2), of(3)])] applied
    to any environment resolves to [[1,2,3]]. *)
Theorem traverseArray_sequenceArray_order {R A B} (f : A → ReaderTask R B)
    (arr : list A) (a b c : A) (effects : list (ReaderTask R B)) (r : R) :
  resolves (ReaderTask.traverseArray f arr r)
  = (λ x, resolves (f x r)) <$> arr
  ∧ resolves (ReaderTask.traverseArray f [a; b; c] r)
    = [resolves (f a r); resolves (f b r); resolves (f c r)]
  ∧ resolves (ReaderTask.sequenceArray effects r)
    = (λ t, resolves (t r)) <$> effects
  ∧ resolves
      (ReaderTask.sequenceArray
         [ReaderTask.of_ 1%Z; ReaderTask.of_ 2%Z; ReaderTask.of_ 3%Z] r)
    = [1%Z; 2%Z; 3%Z].
Proof.
  split; [apply resolves_traverseArray|].
  split; [by rewrite resolves_traverseArray|].
  split; [apply resolves_sequenceArray|].
  by rewrite resolves_sequenceArray.
Qed.

(** Completion order and output order are independent: the three effects
    below settle in the order second, third, first, and the result still
    lists them first, second, third. *)
Example traverseArray_reordered_completion :
  let f (x : Z) : ReaderTask unit Z :=
    ReaderTask.fromTask (Scenario.delay (Z.to_nat (40 - 10 * x)) (x * x)%Z) in
  let started := (λ x, f x tt tt) <$> [1%Z; 3%Z; 2%Z] in
  Promise.completionOrder started = [1; 2; 0]
  ∧ resolves (ReaderTask.traverseArray f [1%Z; 3%Z; 2%Z] tt)
    = [1%Z; 9%Z; 4%Z]
  ∧ settles (ReaderTask.traverseArray f [1%Z; 3%Z; 2%Z] tt) = 30.
Proof. vm_compute. done. Qed.

(* ===================================================================== *)
(** * Further laws of the combinators                                     *)
(* ===================================================================== *)

(** Two promises with the same value and the same settle instant are the
    same promise. *)
Lemma Promise_eq {A} (p q : Promise A) :
  resolved p = resolved q → settled p = settled q → p = q.
Proof. destruct p, q; simpl; congruence. Qed.

Lemma settles_map {R A B} (f : A → B) (fa : ReaderTask R A) r :
  settles (ReaderTask.map f fa r) = settles (fa r).
Proof. reflexivity. Qed.

Lemma settles_of {R A} (a : A) (r : R) : settles (ReaderTask.of_ a r) = 0.
Proof. reflexivity. Qed.

(** Compare two effects run in one environment: same value, and settle
    instants equal up to arithmetic. *)
Ltac same_promise :=
  cbv zeta; apply Promise_eq; [reflexivity|]; cbn; lia.

(** X1 -- [flatten] turns [map] into [chain]: for every [f], effect [m] and
    environment, [flatten(map(f)(m))] is the same promise as [chain(f)(m)],
    and flattening an effect wrapped by [of] gives the effect back. *)
Theorem flatten_map_is_chain {R A B} (f : A → ReaderTask R B)
    (m : ReaderTask R A) (inner : ReaderTask R B) (r : R) :
  ReaderTask.flatten (ReaderTask.map f m) r tt = ReaderTask.chain f m r tt
  ∧ ReaderTask.flatten (ReaderTask.of_ inner) r tt = inner r tt.
Proof. split; [reflexivity|same_promise]. Qed.

(** X2 -- [map] is the map derived from [chain] and [of], and the map derived
    from [ap] and [of] under both disciplines: the effects resolve to the
    same value at the same instant. *)
Theorem map_is_derived_map {R A B} (f : A → B) (fa : ReaderTask R A) (r : R) :
  ReaderTask.chain (λ a, ReaderTask.of_ (f a)) fa r tt
  = ReaderTask.map f fa r tt
  ∧ Applicative.ap ReaderTask.ApplicativePar fa (ReaderTask.of_ f) r tt
    = ReaderTask.map f fa r tt
  ∧ Applicative.ap ReaderTask.ApplicativeSeq fa (ReaderTask.of_ f) r tt
    = ReaderTask.map f fa r tt.
Proof. split; [|split]; same_promise. Qed.

(** X3 -- The composition law of the applicative, for both disciplines and in the
    argument-first order of the instances:
    [ap(w)(ap(v)(ap(u)(of(compose))))] and [ap(ap(w)(v))(u)] are the same
    promise in every environment. *)
Theorem ap_composition_par_seq {R A B C} (u : ReaderTask R (B → C))
    (v : ReaderTask R (A → B)) (w : ReaderTask R A) (r : R) :
  let compose := λ (g : B → C) (f : A → B) (a : A), g (f a) in
  (let F := ReaderTask.ApplicativePar in
   Applicative.ap F w
     (Applicative.ap F v (Applicative.ap F u (Applicative.of_ F compose)))
     r tt
   = Applicative.ap F (Applicative.ap F w v) u r tt)
  ∧ (let F := ReaderTask.ApplicativeSeq in
     Applicative.ap F w
       (Applicative.ap F v (Applicative.ap F u (Applicative.of_ F compose)))
       r tt
     = Applicative.ap F (Applicative.ap F w v) u r tt).
Proof. split; same_promise. Qed.


(** X5 -- [chain] hands the second effect the very environment the first one was
    run in: continuing [ask()] with [f] is running [f(r)] in [r], and a
    continuation built with [asks] reads the same [r]. *)
Theorem chain_reads_same_environment {R A B} (f : R → ReaderTask R B)
    (g : A → R → B) (m : ReaderTask R A) (r : R) :
  ReaderTask.chain f (ReaderTask.ask tt) r tt = f r r tt
  ∧ resolves (ReaderTask.chain (λ a, ReaderTask.asks (g a)) m r)
    = g (resolves (m r)) r
  ∧ settles (ReaderTask.chain (λ a, ReaderTask.asks (g a)) m r)
    = settles (m r).
Proof.
  split; [same_promise|]. split; [reflexivity|].
  unfold settles; simpl; lia.
Qed.

(** X6 -- [fromReader] and [asks] build the same effect; it settles at once, and
    [map], [of] and [chain] on such effects are composition, constant and
    dependent composition of the underlying readers. *)
Theorem fromReader_is_asks {R A B} (f : Reader R A) (g : A → B)
    (k : A → Reader R B) (a : A) (r : R) :
  ReaderTask.fromReader f r tt = ReaderTask.asks f r tt
  ∧ ReaderTask.fromReader f r tt = Promise.resolve (f r)
  ∧ ReaderTask.map g (ReaderTask.fromReader f) r tt
    = ReaderTask.fromReader (g ∘ f) r tt
  ∧ ReaderTask.fromReader (R.of_ a) r tt = ReaderTask.of_ a r tt
  ∧ ReaderTask.chain (λ x, ReaderTask.fromReader (k x))
      (ReaderTask.fromReader f) r tt
    = ReaderTask.fromReader (λ e, k (f e) e) r tt.
Proof. repeat split. Qed.

(** X7 -- A synchronous step costs no time and ignores the environment:
    [chainIOK(f)(ma)] is the same promise as [map(a => f(a)())(ma)], and
    [fromIO(io)] is the same task in every environment. *)
Theorem chainIOK_is_map {R A B} (f : A → IO B) (io : IO B)
    (ma : ReaderTask R A) (r r' : R) :
  ReaderTask.chainIOK f ma r tt = ReaderTask.map (λ a, f a tt) ma r tt
  ∧ ReaderTask.chainIOK f ma r tt
    = ReaderTask.chain (ReaderTask.fromIOK f) ma r tt
  ∧ ReaderTask.fromIO io r = ReaderTask.fromIO io r'
  ∧ ReaderTask.fromIO io r tt = Promise.resolve (io tt).
Proof. split; [same_promise|]. repeat split. Qed.

(** X8 -- [fromTask] commutes with the monad operations: lifting [T.of],
    [T.map] and [T.chain] gives [of], [map] and [chain] of the lifted
    tasks, and [chainTaskK(f)] runs [T.chain(f)] on the task the effect
    yields in the environment. *)
Theorem fromTask_commutes {R A B} (a : A) (g : A → B) (f : A → Task B)
    (t : Task A) (ma : ReaderTask R A) (r : R) :
  ReaderTask.fromTask (T.of_ a) r = ReaderTask.of_ a r
  ∧ ReaderTask.fromTask (T.map g t) r
    = ReaderTask.map g (ReaderTask.fromTask t) r
  ∧ ReaderTask.fromTask (T.chain f t) r
    = ReaderTask.chain (ReaderTask.fromTaskK f) (ReaderTask.fromTask t) r
  ∧ ReaderTask.chainTaskK f ma r = T.chain f (ma r)
  ∧ settles (ReaderTask.chainTaskK f ma r)
    = settles (ma r) + settles (f (resolves (ma r))).
Proof. repeat split. Qed.

(* ===================================================================== *)
(** * Records built by the do notation                                    *)
(* ===================================================================== *)

Lemma resolves_apS {R V} (name : string) (fb : ReaderTask R V)
    (fa : ReaderTask R (gmap string V)) (r : R) :
  resolves (ReaderTask.apS name fb fa r)
  = <[name := resolves (fb r)]> (resolves (fa r)).
Proof. reflexivity. Qed.

Lemma settles_apS {R V} (name : string) (fb : ReaderTask R V)
    (fa : ReaderTask R (gmap string V)) (r : R) :
  settles (ReaderTask.apS name fb fa r) = settles (fa r) `max` settles (fb r).
Proof. reflexivity. Qed.

Lemma settles_bind {R V} (name : string) (f : gmap string V → ReaderTask R V)
    (fa : ReaderTask R (gmap string V)) (r : R) :
  settles (ReaderTask.bind name f fa r)
  = settles (fa r) + settles (f (resolves (fa r)) r).
Proof. reflexivity. Qed.

(** X9 -- [bindTo(name)] seeds the chain with a one-field record; it is what
    [bind(name, () => fa)] builds from [Do], value and instant alike. *)
Theorem bindTo_is_Do_bind {R V} (name : string) (fa : ReaderTask R V) (r : R) :
  resolves (ReaderTask.bindTo name fa r) = {[name := resolves (fa r)]}
  ∧ ReaderTask.bind name (λ _, fa) ReaderTask.Do r tt
    = ReaderTask.bindTo name fa r tt.
Proof.
  split; [reflexivity|].
  apply Promise_eq; [|cbn; lia].
  change (<[name := resolves (fa r)]> (∅ : gmap string V)
          = {[name := resolves (fa r)]}).
  apply insert_empty.
Qed.

(** X10 -- The record [bind(name, f)] resolves to, field by field: [name] holds
    the new value, also when the record already had that field, and every
    other field is as it was; the field names are the old ones and [name]. *)
Theorem bind_fields {R V} (name : string)
    (f : gmap string V → ReaderTask R V)
    (fa : ReaderTask R (gmap string V)) (r : R) :
  let a := resolves (fa r) in
  let a' := resolves (ReaderTask.bind name f fa r) in
  (∀ k, a' !! k = if decide (k = name) then Some (resolves (f a r))
                  else a !! k)
  ∧ dom a' = {[name]} ∪ dom a.
Proof.
  intros a a'. subst a'. rewrite resolves_bind. fold a. split.
  - intros k. case_decide as Hk.
    + subst k. apply lookup_insert_eq.
    + by apply lookup_insert_ne.
  - apply dom_insert_L.
Qed.

(** X11 -- [bind] adds exactly one field when the name is new and none when the
    record already has it. *)
Theorem bind_size {R V} (name : string)
    (f : gmap string V → ReaderTask R V)
    (fa : ReaderTask R (gmap string V)) (r : R) :
  size (resolves (ReaderTask.bind name f fa r))
  = match resolves (fa r) !! name with
    | Some _ => size (resolves (fa r))
    | None => S (size (resolves (fa r)))
    end.
Proof.
  rewrite resolves_bind, map_size_insert.
  by destruct (resolves (fa r) !! name).
Qed.

(** X12 -- Binding the same name twice keeps the later value only; the later
    producer is still handed the record holding the earlier value. *)
Theorem bind_same_name_last_wins {R V} (name : string)
    (f1 f2 : gmap string V → ReaderTask R V)
    (fa : ReaderTask R (gmap string V)) (r : R) :
  let a := resolves (fa r) in
  let a1 := <[name := resolves (f1 a r)]> a in
  resolves (ReaderTask.bind name f2 (ReaderTask.bind name f1 fa) r)
  = <[name := resolves (f2 a1 r)]> a.
Proof.
  intros a a1. rewrite !resolves_bind. fold a. fold a1.
  unfold a1 at 2. apply insert_insert_eq.
Qed.

(** [apS] starts the field effect together with the accumulated effect. *)
Lemma apS_started {R V} (name : string) (fb : StartedReaderTask R V)
    (fa : StartedReaderTask R (gmap string V)) (r : R) (start : nat) :
  resolved (Started.ReaderTask.apS name fb fa r start)
  = <[name := resolved (fb r start)]> (resolved (fa r start))
  ∧ settled (Started.ReaderTask.apS name fb fa r start)
    = settled (fa r start) `max` settled (fb r start).
Proof. split; reflexivity. Qed.

(** [bind] starts the field effect at the instant the accumulated effect
    settles. *)
Lemma bind_started {R V} (name : string)
    (f : gmap string V → StartedReaderTask R V)
    (fa : StartedReaderTask R (gmap string V)) (r : R) (start : nat) :
  let a := resolved (fa r start) in
  let later := start + settled (fa r start) in
  resolved (Started.ReaderTask.bind name f fa r start)
  = <[name := resolved (f a r later)]> a
  ∧ settled (Started.ReaderTask.bind name f fa r start)
    = settled (fa r start) + settled (f a r later).
Proof. split; reflexivity. Qed.



(** A field effect that observes its start tells [apS] from [bind]: the
    accumulated effect settles after 10 and the field resolves to the
    instant at which it is started, 0 under [apS] and 10 under [bind]. *)
Example apS_bind_differ_on_started_task :
  let fb : StartedReaderTask unit nat := λ _, Scenario.now in
  let fa : StartedReaderTask unit (gmap string nat) :=
    λ _, Started.lift (Scenario.delay 10 ∅) in
  resolved (Started.ReaderTask.apS "x" fb fa tt 0) !! "x" = Some 0
  ∧ resolved (Started.ReaderTask.bind "x" (λ _, fb) fa tt 0) !! "x" = Some 10.
Proof.
  intros fb fa.
  destruct (apS_started "x" fb fa tt 0) as [-> _].
  destruct (bind_started "x" (λ _, fb) fa tt 0) as [-> _].
  split; apply lookup_insert_eq.
Qed.



(* ===================================================================== *)
(** * Tuples and arrays                                                   *)
(* ===================================================================== *)

Lemma max_list_app (l k : list nat) :
  max_list (l ++ k) = max_list l `max` max_list k.
Proof. induction l as [|x l IH]; simpl; lia. Qed.

Lemma resolves_apT {R V} (fb : ReaderTask R V) (fas : ReaderTask R (list V))
    (r : R) :
  resolves (ReaderTask.apT fb fas r) = resolves (fas r) ++ [resolves (fb r)].
Proof. reflexivity. Qed.

Lemma settles_apT {R V} (fb : ReaderTask R V) (fas : ReaderTask R (list V))
    (r : R) :
  settles (ReaderTask.apT fb fas r) = settles (fas r) `max` settles (fb r).
Proof. reflexivity. Qed.

Lemma settles_traverseArrayWithIndex {R A B}
    (f : nat → A → ReaderTask R B) (arr : list A) (r : R) :
  settles (ReaderTask.traverseArrayWithIndex f arr r)
  = max_list (imap (λ i a, settles (f i a r)) arr).
Proof.
  unfold ReaderTask.traverseArrayWithIndex, function.flow, R.map,
    R.traverseArrayWithIndex.
  by rewrite settles_T_sequenceArray, fmap_imap.
Qed.

Lemma settles_traverseArray {R A B} (f : A → ReaderTask R B)
    (arr : list A) (r : R) :
  settles (ReaderTask.traverseArray f arr r)
  = max_list ((λ a, settles (f a r)) <$> arr).
Proof.
  unfold ReaderTask.traverseArray.
  rewrite settles_traverseArrayWithIndex. f_equal. apply imap_const.
Qed.

Lemma settles_sequenceArray {R A} (arr : list (ReaderTask R A)) (r : R) :
  settles (ReaderTask.sequenceArray arr r)
  = max_list ((λ t, settles (t r)) <$> arr).
Proof. unfold ReaderTask.sequenceArray. apply settles_traverseArray. Qed.

(** Growing a tuple from any start with [apT], one effect after the other. *)
Lemma foldl_apT {R V} (effects : list (ReaderTask R V))
    (start : ReaderTask R (list V)) (r : R) :
  resolves (foldl (λ fas fb, ReaderTask.apT fb fas) start effects r)
  = resolves (start r) ++ ((λ t, resolves (t r)) <$> effects)
  ∧ settles (foldl (λ fas fb, ReaderTask.apT fb fas) start effects r)
    = settles (start r) `max` max_list ((λ t, settles (t r)) <$> effects).
Proof.
  revert start. induction effects as [|fb effects IH]; intros start.
  - simpl. rewrite app_nil_r. split; [done|lia].
  - cbn [foldl]. destruct (IH (ReaderTask.apT fb start)) as [-> ->].
    rewrite resolves_apT, settles_apT, !fmap_cons, <- app_assoc. simpl.
    split; [done|lia].
Qed.

(** X15 -- [tupled] starts a tuple with one element and [apT(fb)] appends the
    result of [fb] at the end, the tuple growing by exactly one; [fb] is
    started together with the effect that yields the tuple. *)
Theorem apT_appends {R V} (fa fb : ReaderTask R V)
    (fas : ReaderTask R (list V)) (r : R) :
  resolves (ReaderTask.tupled fa r) = [resolves (fa r)]
  ∧ resolves (ReaderTask.apT fb fas r) = resolves (fas r) ++ [resolves (fb r)]
  ∧ length (resolves (ReaderTask.apT fb fas r))
    = S (length (resolves (fas r)))
  ∧ settles (ReaderTask.apT fb fas r) = settles (fas r) `max` settles (fb r)
  ∧ ReaderTask.apT fa ReaderTask.ApT r tt = ReaderTask.tupled fa r tt.
Proof.
  split; [reflexivity|]. split; [reflexivity|].
  split; [rewrite resolves_apT, length_app; simpl; lia|].
  split; [reflexivity|]. same_promise.
Qed.

(** X16 -- Appending the effects of an array one by one with [apT], starting from
    [ApT], gives what [sequenceArray] gives on the array: the same results
    in the same order at the same instant. *)
Theorem apT_fold_is_sequenceArray {R V} (effects : list (ReaderTask R V))
    (r : R) :
  foldl (λ fas fb, ReaderTask.apT fb fas) ReaderTask.ApT effects r tt
  = ReaderTask.sequenceArray effects r tt.
Proof.
  destruct (foldl_apT effects ReaderTask.ApT r) as [Hv Hs].
  apply Promise_eq.
  - change (resolves (foldl (λ fas fb, ReaderTask.apT fb fas)
                        ReaderTask.ApT effects r)
            = resolves (ReaderTask.sequenceArray effects r)).
    by rewrite Hv, resolves_sequenceArray.
  - change (settles (foldl (λ fas fb, ReaderTask.apT fb fas)
                       ReaderTask.ApT effects r)
            = settles (ReaderTask.sequenceArray effects r)).
    rewrite Hs, settles_sequenceArray. simpl. lia.
Qed.

(** X17 -- [traverseArrayWithIndex] hands every element its own position: the
    result has the length of the input, and at each position it holds what
    [f(position, element)] resolves to; past the end both are absent. *)
Theorem traverseArrayWithIndex_positions {R A B}
    (f : nat → A → ReaderTask R B) (arr : list A) (r : R) :
  length (resolves (ReaderTask.traverseArrayWithIndex f arr r)) = length arr
  ∧ (∀ i, resolves (ReaderTask.traverseArrayWithIndex f arr r) !! i
          = (λ a, resolves (f i a r)) <$> arr !! i)
  ∧ resolves
      (ReaderTask.traverseArrayWithIndex (λ i _, ReaderTask.of_ i) arr r)
    = seq 0 (length arr).
Proof.
  rewrite !resolves_traverseArrayWithIndex. split; [apply length_imap|].
  split; [intros i; apply list_lookup_imap|].
  rewrite (imap_ext _ (λ i _, id i)) by done.
  by rewrite (imap_seq_0 arr id), list_fmap_id.
Qed.

(** X18 -- The effects of a traversal are all started together: the traversal
    settles with its slowest element, and an empty array resolves to the
    empty array at once. *)
Theorem traverseArray_settles_with_slowest {R A B} (f : A → ReaderTask R B)
    (arr : list A) (r : R) :
  settles (ReaderTask.traverseArray f arr r)
  = max_list ((λ a, settles (f a r)) <$> arr)
  ∧ Forall (λ a, settles (f a r) ≤ settles (ReaderTask.traverseArray f arr r))
      arr
  ∧ ReaderTask.traverseArray f [] r tt = Promise.resolve [].
Proof.
  split; [apply settles_traverseArray|]. split; [|reflexivity].
  rewrite settles_traverseArray. apply Forall_forall. intros a Ha.
  apply max_list_elem_of_le, list_elem_of_fmap. by exists a.
Qed.

Lemma max_list_zero {A} (l : list A) : max_list ((λ _, 0) <$> l) = 0.
Proof. induction l as [|x l IH]; [done|]. exact IH. Qed.

(** X19 -- [sequenceArray] after mapping [f] over the array is [traverseArray(f)],
    mapping first is traversing with the composite, and traversing with
    [of] is [of] of the array. *)
Theorem traverseArray_fusion {R A B C} (f : A → ReaderTask R B) (g : C → A)
    (arr : list A) (src : list C) (r : R) :
  ReaderTask.sequenceArray (f <$> arr) r tt = ReaderTask.traverseArray f arr r tt
  ∧ ReaderTask.traverseArray f (g <$> src) r tt
    = ReaderTask.traverseArray (f ∘ g) src r tt
  ∧ ReaderTask.traverseArray ReaderTask.of_ arr r tt = ReaderTask.of_ arr r tt.
Proof.
  split; [|split].
  - unfold ReaderTask.sequenceArray, ReaderTask.traverseArray,
      ReaderTask.traverseArrayWithIndex, function.flow, R.map,
      R.traverseArrayWithIndex, T.sequenceArray.
    by rewrite imap_fmap.
  - unfold ReaderTask.traverseArray,
      ReaderTask.traverseArrayWithIndex, function.flow, R.map,
      R.traverseArrayWithIndex, T.sequenceArray.
    by rewrite imap_fmap.
  - apply Promise_eq.
    + change (resolves (ReaderTask.traverseArray ReaderTask.of_ arr r) = arr).
      rewrite resolves_traverseArray.
      exact (list_fmap_id arr).
    + change (settles (ReaderTask.traverseArray ReaderTask.of_ arr r) = 0).
      rewrite settles_traverseArray. apply max_list_zero.
Qed.

(** X20 -- Traversing a concatenation gives the concatenation of the results, and
    it settles with the slower of the two parts. *)
Theorem traverseArray_app {R A B} (f : A → ReaderTask R B)
    (arr1 arr2 : list A) (r : R) :
  resolves (ReaderTask.traverseArray f (arr1 ++ arr2) r)
  = resolves (ReaderTask.traverseArray f arr1 r)
    ++ resolves (ReaderTask.traverseArray f arr2 r)
  ∧ settles (ReaderTask.traverseArray f (arr1 ++ arr2) r)
    = settles (ReaderTask.traverseArray f arr1 r)
      `max` settles (ReaderTask.traverseArray f arr2 r).
Proof.
  rewrite !resolves_traverseArray, !settles_traverseArray, !fmap_app.
  split; [done|apply max_list_app].
Qed.

(** X21 -- Mapping over the result of a traversal is traversing with the mapped
    effects: the same promise. *)
Theorem traverseArray_map {R A B C} (f : A → ReaderTask R B) (h : B → C)
    (arr : list A) (r : R) :
  ReaderTask.map (fmap h) (ReaderTask.traverseArray f arr) r tt
  = ReaderTask.traverseArray (λ a, ReaderTask.map h (f a)) arr r tt.
Proof.
  apply Promise_eq.
  - change (h <$> resolves (ReaderTask.traverseArray f arr r)
            = resolves
                (ReaderTask.traverseArray (λ a, ReaderTask.map h (f a)) arr r)).
    rewrite !resolves_traverseArray, <- list_fmap_compose. done.
  - change (settles (ReaderTask.traverseArray f arr r)
            = settles
                (ReaderTask.traverseArray (λ a, ReaderTask.map h (f a)) arr r)).
    by rewrite !settles_traverseArray.
Qed.

(* ===================================================================== *)
(** * Derived combinators and the semigroup                               *)
(* ===================================================================== *)

(** X22 -- [apFirst] keeps the result of the first effect and [apSecond] that of
    the second; either way both effects are run, started together, and the
    combination settles with the slower one. *)
Theorem apFirst_apSecond_results {R A B} (first : ReaderTask R A)
    (second : ReaderTask R B) (r : R) :
  resolves (ReaderTask.apFirst second first r) = resolves (first r)
  ∧ resolves (ReaderTask.apSecond second first r) = resolves (second r)
  ∧ settles (ReaderTask.apFirst second first r)
    = settles (first r) `max` settles (second r)
  ∧ settles (ReaderTask.apSecond second first r)
    = settles (first r) `max` settles (second r).
Proof. repeat split. Qed.


(** X24 -- The derived combine operation is associative whenever the underlying
    one is: both groupings resolve to the same value at the same instant. *)
Theorem getSemigroup_associative {R A} (S : Semigroup.Semigroup A)
    (x y z : ReaderTask R A) (r : R) :
  associativeOf S →
  let S' := ReaderTask.getSemigroup (R := R) S in
  Semigroup.concat S' (Semigroup.concat S' x y) z r tt
  = Semigroup.concat S' x (Semigroup.concat S' y z) r tt.
Proof.
  intros Hassoc S'. apply Promise_eq.
  - change (Semigroup.concat S
              (Semigroup.concat S (resolves (x r)) (resolves (y r)))
              (resolves (z r))
            = Semigroup.concat S (resolves (x r))
                (Semigroup.concat S (resolves (y r)) (resolves (z r)))).
    apply Hassoc.
  - cbn. lia.
Qed.

Lemma getSemigroup_associative_witness :
  associativeOf (Scenario.MonoidSum : Semigroup.Semigroup Z)
  ∧ (let S' := ReaderTask.getSemigroup (R := Scenario.Env)
                 Scenario.MonoidSum in
     let x := ReaderTask.asks Scenario.n in
     let y := ReaderTask.fromTask (Scenario.delay 10 5%Z) in
     let z := ReaderTask.of_ 7%Z in
     Semigroup.concat S' (Semigroup.concat S' x y) z {| Scenario.n := 1 |} tt
     = Semigroup.concat S' x (Semigroup.concat S' y z)
         {| Scenario.n := 1 |} tt).
Proof.
  assert (associativeOf (Scenario.MonoidSum : Semigroup.Semigroup Z)) as H.
  { intros a b c. simpl. lia. }
  split; [exact H|].
  exact (getSemigroup_associative (Scenario.MonoidSum : Semigroup.Semigroup Z)
           (ReaderTask.asks Scenario.n)
           (ReaderTask.fromTask (Scenario.delay 10 5%Z))
           (ReaderTask.of_ 7%Z) {| Scenario.n := 1 |} H).
Defined.
